(** * Marathon playlist generator: the selection core of [algorithm.py]

    A shallow embedding of the five functions of [algorithm.py]
    ([calculate_target_cadence], [define_race_phases],
    [filter_tracks_for_phase], [fill_phase_duration], [generate_playlist])
    and the properties the specification states about them.

    Numbers.  Python's [int] is [Z].  Python's [float] is read as an exact
    rational ([Q]): a decimal literal such as [0.05] denotes 5/100, the
    arithmetic is exact and there is no NaN or infinity.  Equality of two
    such numbers is [Qeq] ([==]), Python's [==] on numbers.

    Effects.  The source narrates its progress with [print]; the lines are
    kept as a list of structured [event]s next to the value computed.  The
    only exception the five functions can raise on well-typed records is the
    [ZeroDivisionError] of [goal_time_min / distance_km].

    Of [app.py] the list processing of the request handler is embedded as
    well: the batches of 100 and the catalog built from the saved items
    and their audio features, with the Spotify service as a parameter. *)

From Stdlib Require Import ZArith QArith Qabs Lqa Lia String List Bool.
From stdpp Require Import base list.

Open Scope Q_scope.

(** ** Data model *)

(** A track record as [app.py] builds it for the algorithm. *)
Record track := mkTrack {
  id : string;
  name : string;
  artist : string;
  duration_ms : Z;
  tempo : Q;
  energy : Q;
  valence : Q;
  danceability : Q
}.

(** A phase dictionary: the five literal keys of the table and the three
    keys the loop of [define_race_phases] adds. *)
Record phase := mkPhase {
  phase_name : string;
  start_pct : Q;
  end_pct : Q;
  energy_min : Q;
  energy_max : Q;
  start_time : Q;
  end_time : Q;
  duration : Q
}.

(** What a call does: it returns a value or raises. *)
Inductive exn := ZeroDivisionError.

Inductive outcome (A : Type) :=
| Returned (a : A)
| Raised (e : exn).
Arguments Returned {A} a.
Arguments Raised {A} e.

(** The narration lines of [generate_playlist], one constructor per
    [print] statement, carrying the values the f-string interpolates. *)
Inductive event :=
| EvGenerating (distance_km goal_time_min : Q)
| EvTargetCadence (cadence : Z)
| EvPhase (nm : string) (dur emin emax : Q)
| EvFound (n : nat)
| EvRelaxTolerance
| EvEnergyOnly
| EvSelected (n : nat)
| EvTotal (n : nat) (total_ms : Z).

(** ** Comparisons *)

(** Python's [x < y] and [x <= y] on numbers. *)
Definition Qltb (x y : Q) : bool := negb (Qle_bool y x).
Definition Qleb (x y : Q) : bool := Qle_bool x y.

(** Python's chained comparison [lo <= x <= hi]. *)
Definition between (lo x hi : Q) : bool := Qleb lo x && Qleb x hi.

(** ** Cadence estimator *)

(** Python's [/] raises [ZeroDivisionError] on a zero divisor; this is the
    first branch. *)
Definition calculate_target_cadence (distance_km goal_time_min : Q) : outcome Z :=
  if Qeq_bool distance_km 0 then Raised ZeroDivisionError
  else
    let pace_min_per_km := goal_time_min / distance_km in
    if Qltb pace_min_per_km 4.0 then Returned 180%Z
    else if Qltb pace_min_per_km 5.0 then Returned 175%Z
    else Returned 170%Z.

(** ** Phase planner *)

(** The literal table: name, start_pct, end_pct, energy_min, energy_max. *)
Definition phase_table : list (string * Q * Q * Q * Q) :=
  [ ("Warmup"%string, 0.0, 0.05, 0.5, 0.6);
    ("Settle"%string, 0.05, 0.30, 0.5, 0.65);
    ("Cruise"%string, 0.30, 0.55, 0.6, 0.7);
    ("Grind"%string, 0.55, 0.75, 0.7, 0.8);
    ("Wall"%string, 0.75, 0.90, 0.80, 1.0);
    ("Glory"%string, 0.90, 1.0, 0.85, 1.0) ].

(** The body of [for phase in phases]: the three derived keys. *)
Definition add_times (goal_time_min : Q) (row : string * Q * Q * Q * Q) : phase :=
  let '(nm, s, e, emin, emax) := row in
  let st := s * goal_time_min in
  let et := e * goal_time_min in
  mkPhase nm s e emin emax st et (et - st).

(** [distance_km] is accepted and not used, as in the source. *)
Definition define_race_phases (distance_km goal_time_min : Q) : list phase :=
  List.map (add_times goal_time_min) phase_table.

(** ** Track filter *)

Definition matches_full_cadence (target_cadence bpm_tolerance tempo : Q) : bool :=
  between (target_cadence - bpm_tolerance) tempo (target_cadence + bpm_tolerance).

Definition matches_half_cadence (target_cadence bpm_tolerance tempo : Q) : bool :=
  between (target_cadence / 2 - bpm_tolerance) tempo (target_cadence / 2 + bpm_tolerance).

Definition matches_double_cadence (target_cadence bpm_tolerance tempo : Q) : bool :=
  between (target_cadence * 2 - bpm_tolerance) tempo (target_cadence * 2 + bpm_tolerance).

Definition matches_energy (ph : phase) (t : track) : bool :=
  between (energy_min ph) (energy t) (energy_max ph).

(** The condition of the [if] in the loop body. *)
Definition suitable (ph : phase) (target_cadence bpm_tolerance : Q) (t : track) : bool :=
  (matches_full_cadence target_cadence bpm_tolerance (tempo t)
   || matches_half_cadence target_cadence bpm_tolerance (tempo t)
   || matches_double_cadence target_cadence bpm_tolerance (tempo t))
  && matches_energy ph t.

(** [for track in tracks: ... suitable_tracks.append(track)], with the
    list built so far as the loop state. *)
Fixpoint filter_loop (ph : phase) (target_cadence bpm_tolerance : Q)
    (suitable_tracks tracks : list track) : list track :=
  match tracks with
  | [] => suitable_tracks
  | t :: rest =>
      filter_loop ph target_cadence bpm_tolerance
        (if suitable ph target_cadence bpm_tolerance t
         then suitable_tracks ++ [t] else suitable_tracks)
        rest
  end.

Definition filter_tracks_for_phase (tracks : list track) (ph : phase)
    (target_cadence bpm_tolerance : Q) : list track :=
  filter_loop ph target_cadence bpm_tolerance [] tracks.

(** ** Phase filler *)

(** The [while] loop, with its three variables as the state; every
    iteration pops the head of [available_tracks], so the recursion is on
    that list.  [available_tracks] is a copy: the caller's list is left as
    it was. *)
Fixpoint fill_loop (target_duration_ms : Q) (current_duration_ms : Z)
    (selected_tracks available_tracks : list track) : list track :=
  if Qltb (inject_Z current_duration_ms) target_duration_ms then
    match available_tracks with
    | [] => selected_tracks
    | t :: rest =>
        fill_loop target_duration_ms (current_duration_ms + duration_ms t)%Z
          (selected_tracks ++ [t]) rest
    end
  else selected_tracks.

Definition fill_phase_duration (tracks : list track) (phase_duration_min : Q) : list track :=
  match tracks with
  | [] => []
  | _ =>
      let target_duration_ms := phase_duration_min * 60 * 1000 in
      fill_loop target_duration_ms 0%Z [] tracks
  end.

(** ** Playlist assembler *)

(** The list comprehension of the last fallback. *)
Definition energy_only (tracks : list track) (ph : phase) : list track :=
  List.filter (matches_energy ph) tracks.

(** Sum of the durations, as the closing [print] computes it. *)
Definition total_duration_ms (l : list track) : Z :=
  fold_right (fun t acc => (duration_ms t + acc)%Z) 0%Z l.

(** The part of the loop body that chooses the candidates of a phase:
    the printed lines and the final [suitable_tracks]. *)
Definition select_candidates (tracks : list track) (ph : phase) (target_cadence : Z)
    : list event * list track :=
  let bpm_tolerance := 5 in
  let suitable_tracks :=
    filter_tracks_for_phase tracks ph (inject_Z target_cadence) bpm_tolerance in
  let out := [EvFound (length suitable_tracks)] in
  let '(out, suitable_tracks) :=
    if (length suitable_tracks <? 3)%nat
    then (out ++ [EvRelaxTolerance],
          filter_tracks_for_phase tracks ph (inject_Z target_cadence) 10)
    else (out, suitable_tracks) in
  let '(out, suitable_tracks) :=
    if (length suitable_tracks <? 3)%nat
    then (out ++ [EvEnergyOnly], energy_only tracks ph)
    else (out, suitable_tracks) in
  (out, suitable_tracks).

(** One iteration of [for phase in phases]; the state is the output so far
    and the playlist so far. *)
Definition phase_step (tracks : list track) (target_cadence : Z)
    (st : list event * list track) (ph : phase) : list event * list track :=
  let '(out, playlist) := st in
  let out := out ++ [EvPhase (phase_name ph) (duration ph) (energy_min ph) (energy_max ph)] in
  let '(out', suitable_tracks) := select_candidates tracks ph target_cadence in
  let phase_tracks := fill_phase_duration suitable_tracks (duration ph) in
  (out ++ out' ++ [EvSelected (length phase_tracks)], playlist ++ phase_tracks).

(** The whole call: what it printed, and what it returned or raised. *)
Definition generate_playlist (tracks : list track) (distance_km goal_time_min : Q)
    : list event * outcome (list track) :=
  let out := [EvGenerating distance_km goal_time_min] in
  match calculate_target_cadence distance_km goal_time_min with
  | Raised e => (out, Raised e)
  | Returned target_cadence =>
      let out := out ++ [EvTargetCadence target_cadence] in
      let phases := define_race_phases distance_km goal_time_min in
      let '(out, playlist) :=
        fold_left (phase_step tracks target_cadence) phases (out, []) in
      (out ++ [EvTotal (length playlist) (total_duration_ms playlist)],
       Returned playlist)
  end.

(** What one phase contributes to the playlist. *)
Definition phase_tracks (tracks : list track) (target_cadence : Z) (ph : phase) : list track :=
  fill_phase_duration (snd (select_candidates tracks ph target_cadence)) (duration ph).

(** What one phase prints. *)
Definition phase_narration (tracks : list track) (target_cadence : Z) (ph : phase)
    : list event :=
  EvPhase (phase_name ph) (duration ph) (energy_min ph) (energy_max ph)
  :: fst (select_candidates tracks ph target_cadence)
  ++ [EvSelected (length (phase_tracks tracks target_cadence ph))].



(** ** Sample data *)

(** A small catalog for a 10 km run in 50 minutes (cadence 170).  In the
    Warmup band two tracks match at tolerance 5 ([steady] at full cadence,
    [halftime] at half cadence), [drift] matches only at tolerance 10 and
    [offbeat] matches by energy alone. *)
Definition steady : track :=
  mkTrack "t1" "Steady" "A" 200000 172 0.55 0.5 0.5.
Definition halftime : track :=
  mkTrack "t2" "Halftime" "B" 180000 85 0.55 0.5 0.5.
Definition drift : track :=
  mkTrack "t3" "Drift" "C" 240000 178 0.55 0.5 0.5.
Definition offbeat : track :=
  mkTrack "t4" "Offbeat" "D" 210000 120 0.55 0.5 0.5.
Definition sample_catalog : list track := [steady; halftime; drift; offbeat].

(** The Warmup phase of a 50 minute run. *)
Definition warmup_50 : phase :=
  add_times 50 ("Warmup"%string, 0.0, 0.05, 0.5, 0.6).

(** A track whose energy 0.6 lies in the Warmup, Settle and Cruise bands. *)
Definition anthem : track :=
  mkTrack "t5" "Anthem" "E" 3600000 170 0.6 0.5 0.5.

(** Three tracks of one hour, one for the bands up to Cruise, one for Grind
    and one for Wall and Glory. *)
Definition long_catalog : list track :=
  [ anthem;
    mkTrack "t6" "Climb" "F" 3600000 175 0.75 0.5 0.5;
    mkTrack "t7" "Finish" "G" 3600000 90 0.9 0.5 0.5 ].

(** * The specification's vocabulary *)

(** The filter in the specification's words: [x] is within [tol] of [y]. *)
Definition within (tol x y : Q) : Prop := Qabs (x - y) <= tol.

(** The energy of a track is in the band of a phase, both ends included. *)
Definition in_band (ph : phase) (t : track) : Prop :=
  energy_min ph <= energy t /\ energy t <= energy_max ph.

(** A track qualifies for a phase when its tempo is within the tolerance of
    the cadence, of half of it or of twice it, and its energy is in the
    phase's band, both ends included. *)
Definition qualifies (ph : phase) (target_cadence bpm_tolerance : Q) (t : track) : Prop :=
  (within bpm_tolerance (tempo t) target_cadence
   \/ within bpm_tolerance (tempo t) (target_cadence / 2)
   \/ within bpm_tolerance (tempo t) (target_cadence * 2))
  /\ in_band ph t.

#[global] Instance Qle_decision (x y : Q) : Decision (x <= y) :=
  match Qlt_le_dec y x with
  | left H => right (Qlt_not_le _ _ H)
  | right H => left H
  end.

#[global] Instance in_band_decision ph t : Decision (in_band ph t).
Proof. unfold in_band. apply _. Defined.

#[global] Instance qualifies_decision ph c tol t : Decision (qualifies ph c tol t).
Proof. unfold qualifies, within. apply _. Defined.

(** The candidates of a phase as the specification describes the
    escalation: tolerance 5; with fewer than 3 tracks, tolerance 10 on the
    full catalog; with still fewer than 3, every track of the catalog in
    the energy band. *)
Definition spec_candidates (tracks : list track) (ph : phase) (target_cadence : Q)
    : list track :=
  let at5 := filter (qualifies ph target_cadence 5) tracks in
  if decide (length at5 < 3)%nat then
    let at10 := filter (qualifies ph target_cadence 10) tracks in
    if decide (length at10 < 3)%nat then filter (in_band ph) tracks else at10
  else at5.

(** The lines the escalation prints, in the same words. *)
Definition spec_narration (tracks : list track) (ph : phase) (target_cadence : Q)
    : list event :=
  let at5 := filter (qualifies ph target_cadence 5) tracks in
  let at10 := filter (qualifies ph target_cadence 10) tracks in
  EvFound (length at5)
  :: (if decide (length at5 < 3)%nat
      then EvRelaxTolerance
           :: (if decide (length at10 < 3)%nat then [EvEnergyOnly] else [])
      else []).





(** * The catalog and the requests of [app.py]

    The part of the request handler [generate] that is list processing:
    the ids of the saved tracks, the requests in batches of 100, the
    audio features kept, and the records handed to [generate_playlist].
    The Spotify client is outside the program; its [audio_features] call
    is a parameter [api], a function from the ids asked for to the list
    answered (an entry is [None] for a track without features). *)

(** The part of a saved item the handler reads.  An id is a string here
    and the empty string is the falsy one. *)
Record sp_artist := mkArtist { artist_name : string }.

Record sp_track := mkSpTrack {
  sp_id : string;
  sp_name : string;
  sp_artists : list sp_artist;
  sp_duration_ms : Z
}.

Record saved_item := mkItem { item_track : sp_track }.

Record audio_features := mkFeatures {
  f_tempo : Q;
  f_energy : Q;
  f_valence : Q;
  f_danceability : Q
}.

(** The exception of [artists[0]] on a track without artists. *)
Inductive app_exn := IndexError.

Inductive result (A : Type) :=
| Ok (a : A)
| Err (e : app_exn).
Arguments Ok {A} a.
Arguments Err {A} e.

(** Python's truth value of a string. *)
Definition truthy (s : string) : bool := negb (String.eqb s "").

(** [range(start, stop, step)] for a positive step: the values
    [start], [start + step], ... below [stop].  There are at most [stop]
    of them, which bounds the recursion. *)
Fixpoint range_loop (fuel i stop step : nat) : list nat :=
  match fuel with
  | O => []
  | S fuel' =>
      if (i <? stop)%nat then i :: range_loop fuel' (i + step) stop step else []
  end.

Definition py_range (start stop step : nat) : list nat :=
  range_loop stop start stop step.

(** The slice [xs[i:j]] for [0 <= i]; indices past the end are clipped. *)
Definition slice {A} (xs : list A) (i j : nat) : list A :=
  take (j - i) (drop i xs).

(** [for i in range(0, len(xs), 100): batch = xs[i:i+100]]: the batches
    in the order the loop makes them. *)
Definition batches {A} (xs : list A) : list (list A) :=
  List.map (fun i => slice xs i (i + 100)) (py_range 0 (length xs) 100).

(** [[item['track']['id'] for item in saved_tracks if item['track']['id']]] *)
Definition track_ids (saved_tracks : list saved_item) : list string :=
  List.map (fun item => sp_id (item_track item))
    (List.filter (fun item => truthy (sp_id (item_track item))) saved_tracks).

(** [[f for f in features if f is not None]] *)
Definition not_none {A} (features : list (option A)) : list A :=
  omap (fun f => f) features.

(** The loop over the batches, with [all_features] as its state. *)
Definition fetch_all_features (api : list string -> list (option audio_features))
    (ids : list string) : list audio_features :=
  fold_left (fun all_features batch => all_features ++ not_none (api batch))
    (batches ids) [].

(** The dictionary built for one pair; [artists[0]] raises on an empty
    list.  A features record is never empty, so [if features] holds. *)
Definition make_entry (item : saved_item) (features : audio_features) : result track :=
  match sp_artists (item_track item) with
  | [] => Err IndexError
  | first_artist :: _ =>
      Ok (mkTrack (sp_id (item_track item)) (sp_name (item_track item))
            (artist_name first_artist) (sp_duration_ms (item_track item))
            (f_tempo features) (f_energy features)
            (f_valence features) (f_danceability features))
  end.

(** [for item, features in zip(saved_tracks, all_features)], with
    [tracks_with_features] as the state; an exception ends the loop. *)
Fixpoint combine_loop (tracks_with_features : list track)
    (pairs : list (saved_item * audio_features)) : result (list track) :=
  match pairs with
  | [] => Ok tracks_with_features
  | (item, features) :: rest =>
      match make_entry item features with
      | Err e => Err e
      | Ok t => combine_loop (tracks_with_features ++ [t]) rest
      end
  end.

(** Steps 2 of the handler: from the saved items to the catalog. *)
Definition build_catalog (api : list string -> list (option audio_features))
    (saved_tracks : list saved_item) : result (list track) :=
  let ids := track_ids saved_tracks in
  let all_features := fetch_all_features api ids in
  combine_loop [] (zip saved_tracks all_features).

(** A catalog record made of a saved item and a features record: the
    item gives id, name, first artist and duration, the features give
    tempo, energy, valence and danceability. *)
Definition carries (item : saved_item) (features : audio_features) (t : track) : Prop :=
  id t = sp_id (item_track item)
  /\ name t = sp_name (item_track item)
  /\ (exists a others, sp_artists (item_track item) = a :: others
                       /\ artist t = artist_name a)
  /\ duration_ms t = sp_duration_ms (item_track item)
  /\ tempo t = f_tempo features /\ energy t = f_energy features
  /\ valence t = f_valence features /\ danceability t = f_danceability features.

(** The saved items for which features are kept: those with an id for
    which the service has features. *)
Definition featured (lookup : string -> option audio_features)
    (saved_tracks : list saved_item) : list saved_item :=
  List.filter
    (fun item => truthy (sp_id (item_track item))
                 && match lookup (sp_id (item_track item)) with
                    | Some _ => true
                    | None => false
                    end)
    saved_tracks.

(** Saved items and a service for the examples: a local file has no id,
    and the service knows the tracks "a" and "b". *)
Definition item_a : saved_item :=
  mkItem (mkSpTrack "a" "Alpha" [mkArtist "Ann"; mkArtist "Al"] 200000).
Definition item_local : saved_item :=
  mkItem (mkSpTrack "" "Local file" [mkArtist "Me"] 100000).
Definition item_b : saved_item :=
  mkItem (mkSpTrack "b" "Beta" [mkArtist "Bob"] 180000).
Definition features_a : audio_features := mkFeatures 172 0.55 0.5 0.5.
Definition features_b : audio_features := mkFeatures 85 0.9 0.4 0.6.
Definition sample_lookup (i : string) : option audio_features :=
  if String.eqb i "a" then Some features_a
  else if String.eqb i "b" then Some features_b
  else None.
Definition sample_api (batch : list string) : list (option audio_features) :=
  List.map sample_lookup batch.

(** A saved item whose track lists no artist. *)
Definition no_artist (item : saved_item) : Prop := sp_artists (item_track item) = [].

(** * Properties *)

(** ** Comparisons as propositions *)

Lemma Qltb_lt (x y : Q) : Qltb x y = true <-> x < y.
Proof.
  unfold Qltb. rewrite negb_true_iff, <- not_true_iff_false, Qle_bool_iff.
  split; [apply Qnot_le_lt | apply Qlt_not_le].
Qed.

Lemma Qltb_ge (x y : Q) : Qltb x y = false <-> y <= x.
Proof.
  unfold Qltb. rewrite negb_false_iff. apply Qle_bool_iff.
Qed.

Lemma Qleb_le (x y : Q) : Qleb x y = true <-> x <= y.
Proof. apply Qle_bool_iff. Qed.

Lemma between_spec (lo x hi : Q) : between lo x hi = true <-> lo <= x /\ x <= hi.
Proof. unfold between. now rewrite andb_true_iff, !Qleb_le. Qed.

#[global] Instance Qltb_proper : Proper (Qeq ==> Qeq ==> eq) Qltb.
Proof. intros x x' Hx y y' Hy. unfold Qltb. now rewrite Hx, Hy. Qed.

#[global] Instance between_proper : Proper (Qeq ==> Qeq ==> Qeq ==> eq) between.
Proof.
  intros a a' Ha b b' Hb c c' Hc. unfold between, Qleb. now rewrite Ha, Hb, Hc.
Qed.

(** ** The two loops as list functions *)

Lemma filter_loop_spec ph c tol (acc l : list track) :
  filter_loop ph c tol acc l = acc ++ List.filter (suitable ph c tol) l.
Proof.
  revert acc. induction l as [|t l IH]; intros acc; simpl.
  - now rewrite app_nil_r.
  - rewrite IH. destruct (suitable ph c tol t); [|reflexivity].
    now rewrite <- app_assoc.
Qed.

Lemma filter_tracks_for_phase_filter tracks ph c tol :
  filter_tracks_for_phase tracks ph c tol = List.filter (suitable ph c tol) tracks.
Proof. unfold filter_tracks_for_phase. now rewrite filter_loop_spec. Qed.


Lemma List_filter_weaken {A} (f g : A -> bool) (l : list A) :
  (forall x, f x = true -> g x = true) ->
  List.filter f l `sublist_of` List.filter g l.
Proof.
  intros Hfg. induction l as [|x l IH]; simpl; [constructor|].
  destruct (f x) eqn:Hf.
  - rewrite (Hfg _ Hf). now constructor.
  - destruct (g x); [now constructor | exact IH].
Qed.

Lemma total_duration_ms_app (l k : list track) :
  total_duration_ms (l ++ k) = (total_duration_ms l + total_duration_ms k)%Z.
Proof. induction l as [|t l IH]; simpl; [reflexivity | rewrite IH; lia]. Qed.

(** The selected list only grows at its end. *)
Lemma fill_loop_selected tgt cur (sel avail : list track) :
  fill_loop tgt cur sel avail = sel ++ fill_loop tgt cur [] avail.
Proof.
  revert cur sel. induction avail as [|t rest IH]; intros cur sel; simpl.
  - destruct (Qltb _ _); now rewrite app_nil_r.
  - destruct (Qltb _ _); [|now rewrite app_nil_r].
    rewrite (IH _ (sel ++ [t])), (IH _ ([] ++ [t])). simpl.
    now rewrite <- app_assoc.
Qed.

Lemma fill_loop_cons tgt cur t rest :
  fill_loop tgt cur [] (t :: rest) =
  if Qltb (inject_Z cur) tgt
  then t :: fill_loop tgt (cur + duration_ms t)%Z [] rest
  else [].
Proof.
  simpl. destruct (Qltb _ _); [|reflexivity].
  now rewrite fill_loop_selected.
Qed.

Lemma fill_loop_nil tgt cur : fill_loop tgt cur [] [] = [].
Proof. simpl. now destruct (Qltb _ _). Qed.

Lemma fill_loop_prefix tgt cur avail :
  fill_loop tgt cur [] avail `prefix_of` avail.
Proof.
  revert cur. induction avail as [|t rest IH]; intros cur.
  - rewrite fill_loop_nil. reflexivity.
  - rewrite fill_loop_cons. destruct (Qltb _ _).
    + apply prefix_cons, IH.
    + apply prefix_nil.
Qed.

(** When the loop ends, the target is reached or the input is used up. *)
Lemma fill_loop_reaches tgt cur avail :
  tgt <= inject_Z (cur + total_duration_ms (fill_loop tgt cur [] avail))
  \/ fill_loop tgt cur [] avail = avail.
Proof.
  revert cur. induction avail as [|t rest IH]; intros cur.
  - right. apply fill_loop_nil.
  - rewrite fill_loop_cons. destruct (Qltb _ _) eqn:Hlt.
    + destruct (IH (cur + duration_ms t)%Z) as [H|H].
      * left. simpl. now rewrite Z.add_assoc.
      * right. now rewrite H.
    + left. apply Qltb_ge in Hlt. simpl. now rewrite Z.add_0_r.
Qed.

(** Before every track that was selected, the target was not reached. *)
Lemma fill_loop_minimal tgt cur avail (p q : list track) :
  fill_loop tgt cur [] avail = p ++ q -> q <> [] ->
  inject_Z (cur + total_duration_ms p) < tgt.
Proof.
  revert cur p. induction avail as [|t rest IH]; intros cur p.
  - rewrite fill_loop_nil. intros H Hq.
    symmetry in H. apply app_eq_nil in H. tauto.
  - rewrite fill_loop_cons. destruct (Qltb _ _) eqn:Hlt.
    + apply Qltb_lt in Hlt. destruct p as [|t' p]; simpl.
      * intros _ _. now rewrite Z.add_0_r.
      * intros H Hq. injection H as -> H.
        rewrite Z.add_assoc. now apply (IH _ _ H).
    + intros H Hq. symmetry in H. apply app_eq_nil in H. tauto.
Qed.

Lemma fill_phase_duration_reaches tracks m :
  m * 60 * 1000 <= inject_Z (total_duration_ms (fill_phase_duration tracks m))
  \/ fill_phase_duration tracks m = tracks.
Proof.
  destruct tracks as [|t rest]; [now right|].
  apply (fill_loop_reaches (m * 60 * 1000) 0).
Qed.

Lemma fill_phase_duration_prefix tracks m :
  fill_phase_duration tracks m `prefix_of` tracks.
Proof.
  destruct tracks as [|t rest]; [reflexivity|].
  apply fill_loop_prefix.
Qed.

(** ** Phase filler *)


(** Warmup of a 50 minute run lasts 2.5 minutes, 150000 ms: the first
    track of 200000 ms crosses the target and the filler stops there. *)
Example fill_sample_stops :
  fill_phase_duration [steady; halftime; drift] (duration warmup_50) = [steady].
Proof. reflexivity. Qed.

(** With 12.5 minutes to fill the three tracks (620000 ms) run out first. *)
Example fill_sample_exhausted :
  fill_phase_duration [steady; halftime; drift] 12.5 = [steady; halftime; drift].
Proof. reflexivity. Qed.

(** ** Track filter *)

Lemma between_within (c tol x : Q) :
  between (c - tol) x (c + tol) = true <-> within tol x c.
Proof.
  rewrite between_spec. unfold within. rewrite Qabs_Qle_condition.
  split; intros [H1 H2]; split; lra.
Qed.

Lemma suitable_qualifies ph c tol t :
  suitable ph c tol t = true <-> qualifies ph c tol t.
Proof.
  unfold suitable, qualifies, matches_full_cadence, matches_half_cadence,
    matches_double_cadence, matches_energy.
  unfold in_band.
  rewrite andb_true_iff, !orb_true_iff, !between_within, between_spec.
  tauto.
Qed.

#[global] Instance suitable_proper ph : Proper (Qeq ==> Qeq ==> eq ==> eq) (suitable ph).
Proof.
  intros c c' Hc tol tol' Htol t t' <-.
  unfold suitable, matches_full_cadence, matches_half_cadence, matches_double_cadence.
  now rewrite Hc, Htol.
Qed.

Lemma List_filter_decide {A} (f : A -> bool) (P : A -> Prop)
    `{!forall x, Decision (P x)} (l : list A) :
  (forall x, f x = true <-> P x) -> List.filter f l = filter P l.
Proof.
  intros Hf. induction l as [|x l IH]; [reflexivity|].
  simpl. rewrite filter_cons, IH.
  destruct (decide (P x)) as [HP|HP], (f x) eqn:E; try reflexivity.
  - apply Hf in HP. congruence.
  - apply Hf in E. contradiction.
Qed.

Lemma List_filter_ext_in {A} (f g : A -> bool) (l : list A) :
  (forall x, f x = g x) -> List.filter f l = List.filter g l.
Proof.
  intros H. induction l as [|x l IH]; simpl; [reflexivity|].
  now rewrite H, IH.
Qed.



(** The filter on the sample catalog: two tracks at tolerance 5, three at
    tolerance 10, in catalog order. *)
Example filter_sample_5 :
  filter_tracks_for_phase sample_catalog warmup_50 170 5 = [steady; halftime].
Proof. reflexivity. Qed.

Example filter_sample_10 :
  filter_tracks_for_phase sample_catalog warmup_50 170 10 = [steady; halftime; drift].
Proof. reflexivity. Qed.

(** ** Cadence estimator *)






(** ** Phase planner *)


(** ** Playlist assembler *)

Lemma energy_only_in_band tracks ph : energy_only tracks ph = filter (in_band ph) tracks.
Proof.
  unfold energy_only. apply List_filter_decide.
  intros t. unfold matches_energy. apply between_spec.
Qed.

Lemma filter_tracks_for_phase_qualifies tracks ph c tol :
  filter_tracks_for_phase tracks ph c tol = filter (qualifies ph c tol) tracks.
Proof.
  rewrite filter_tracks_for_phase_filter.
  apply List_filter_decide, suitable_qualifies.
Qed.

(** The source's escalation is the specification's. *)
Lemma select_candidates_spec tracks ph (c : Z) :
  select_candidates tracks ph c
  = (spec_narration tracks ph (inject_Z c), spec_candidates tracks ph (inject_Z c)).
Proof.
  unfold select_candidates, spec_narration, spec_candidates.
  rewrite !filter_tracks_for_phase_qualifies, energy_only_in_band.
  set (at5 := filter (qualifies ph (inject_Z c) 5) tracks).
  set (at10 := filter (qualifies ph (inject_Z c) 10) tracks).
  destruct (decide (length at5 < 3)%nat) as [H5|H5].
  - apply Nat.ltb_lt in H5 as ->.
    destruct (decide (length at10 < 3)%nat) as [H10|H10].
    + apply Nat.ltb_lt in H10 as ->. reflexivity.
    + apply Nat.ltb_nlt in H10 as ->. reflexivity.
  - assert (E : (length at5 <? 3)%nat = false) by now apply Nat.ltb_nlt.
    rewrite E. simpl. now rewrite E.
Qed.

Lemma phase_step_spec tracks c out playlist ph :
  phase_step tracks c (out, playlist) ph
  = (out ++ phase_narration tracks c ph, playlist ++ phase_tracks tracks c ph).
Proof.
  unfold phase_step, phase_narration, phase_tracks.
  destruct (select_candidates tracks ph c) as [out' cands]. simpl.
  now rewrite <- app_assoc.
Qed.

Lemma fold_phase_step tracks c phases out playlist :
  fold_left (phase_step tracks c) phases (out, playlist)
  = (out ++ concat (List.map (phase_narration tracks c) phases),
     playlist ++ concat (List.map (phase_tracks tracks c) phases)).
Proof.
  revert out playlist. induction phases as [|ph phases IH]; intros out playlist.
  - simpl. now rewrite !app_nil_r.
  - cbn [fold_left]. rewrite phase_step_spec, IH. cbn [List.map concat].
    now rewrite <- !app_assoc.
Qed.

(** A call that gets past the division. *)
Lemma generate_playlist_returned tracks d g c :
  calculate_target_cadence d g = Returned c ->
  let phases := define_race_phases d g in
  let playlist := concat (List.map (phase_tracks tracks c) phases) in
  generate_playlist tracks d g
  = (EvGenerating d g :: EvTargetCadence c
       :: concat (List.map (phase_narration tracks c) phases)
       ++ [EvTotal (length playlist) (total_duration_ms playlist)],
     Returned playlist).
Proof.
  intros Hc phases playlist. unfold generate_playlist. rewrite Hc.
  fold phases. rewrite fold_phase_step. simpl. reflexivity.
Qed.


Lemma prefix_is_sublist {A} (l k : list A) : l `prefix_of` k -> l `sublist_of` k.
Proof. intros [r ->]. now apply sublist_inserts_r. Qed.

Lemma phase_tracks_prefix tracks c ph :
  phase_tracks tracks c ph `prefix_of` snd (select_candidates tracks ph c).
Proof. apply fill_phase_duration_prefix. Qed.

Lemma spec_candidates_sublist tracks ph c :
  spec_candidates tracks ph c `sublist_of` tracks.
Proof.
  unfold spec_candidates.
  repeat destruct (decide _); apply sublist_filter.
Qed.

Lemma phase_tracks_sublist tracks c ph :
  phase_tracks tracks c ph `sublist_of` tracks.
Proof.
  etransitivity; [apply prefix_is_sublist, phase_tracks_prefix|].
  rewrite select_candidates_spec. apply spec_candidates_sublist.
Qed.

(** C1. In a call that gets past the cadence computation, every phase's
    candidates are chosen as the specification says: the full catalog is
    filtered with tolerance 5; with fewer than 3 results the full catalog
    is filtered again with tolerance 10; with still fewer than 3 the
    candidates are all catalog tracks in the phase's energy band; and the
    candidates go to the filler with the phase's duration.  The printed
    lines follow the same order, so with exactly 2 tracks at tolerance 5
    the relaxation to 10 is announced first, and the energy-only fallback,
    if any, after it. *)
Theorem generate_playlist_escalation (tracks : list track) (d g : Q) (c : Z)
    (Hc : calculate_target_cadence d g = Returned c) :
  let phases := define_race_phases d g in
  let chosen ph :=
    fill_phase_duration (spec_candidates tracks ph (inject_Z c)) (duration ph) in
  snd (generate_playlist tracks d g) = Returned (concat (List.map chosen phases))
  /\ fst (generate_playlist tracks d g)
     = EvGenerating d g :: EvTargetCadence c
       :: concat (List.map
            (fun ph =>
               EvPhase (phase_name ph) (duration ph) (energy_min ph) (energy_max ph)
               :: spec_narration tracks ph (inject_Z c)
               ++ [EvSelected (length (chosen ph))]) phases)
       ++ [EvTotal (length (concat (List.map chosen phases)))
             (total_duration_ms (concat (List.map chosen phases)))]
  /\ (forall ph,
        length (filter (qualifies ph (inject_Z c) 5) tracks) = 2%nat ->
        exists rest,
          spec_narration tracks ph (inject_Z c)
          = EvFound 2 :: EvRelaxTolerance :: rest
          /\ (rest = [] \/ rest = [EvEnergyOnly])).
Proof.
  intros phases chosen.
  assert (Hch : forall ph, phase_tracks tracks c ph = chosen ph).
  { intros ph. unfold phase_tracks, chosen. now rewrite select_candidates_spec. }
  assert (Hnar : forall ph,
    phase_narration tracks c ph
    = EvPhase (phase_name ph) (duration ph) (energy_min ph) (energy_max ph)
      :: spec_narration tracks ph (inject_Z c) ++ [EvSelected (length (chosen ph))]).
  { intros ph. unfold phase_narration. now rewrite Hch, select_candidates_spec. }
  rewrite (generate_playlist_returned tracks d g c Hc).
  cbv zeta. cbn [fst snd]. fold phases.
  rewrite (List.map_ext _ _ Hch), (List.map_ext _ _ Hnar).
  split; [reflexivity|]. split; [reflexivity|].
  intros ph H2. unfold spec_narration. rewrite H2.
  destruct (decide (2 < 3)%nat) as [_|H]; [|lia].
  destruct (decide _); eauto.
Qed.

(** Exactly two tracks at tolerance 5: the tolerance is relaxed to 10,
    which finds a third, and the energy-only fallback is not used. *)
Example escalation_sample :
  select_candidates sample_catalog warmup_50 170
  = ([EvFound 2; EvRelaxTolerance], [steady; halftime; drift]).
Proof. reflexivity. Qed.

(** Without the third track the fallback follows the relaxation. *)
Example escalation_sample_fallback :
  select_candidates [steady; halftime; offbeat] warmup_50 170
  = ([EvFound 2; EvRelaxTolerance; EvEnergyOnly], [steady; halftime; offbeat]).
Proof. reflexivity. Qed.

Lemma generate_playlist_escalation_witness :
  calculate_target_cadence 10 50 = Returned 170%Z
  /\ snd (generate_playlist sample_catalog 10 50)
     = Returned (concat (List.map
         (fun ph => fill_phase_duration
                      (spec_candidates sample_catalog ph (inject_Z 170)) (duration ph))
         (define_race_phases 10 50))).
Proof.
  split; [reflexivity|].
  exact (proj1 (generate_playlist_escalation sample_catalog 10 50 170 eq_refl)).
Defined.

(** C10. Relaxing never removes a candidate.  For the same catalog, phase
    and cadence, the result at a smaller tolerance is a sublist of the
    result at a larger one (so tolerance 5 is within tolerance 10), every
    result of the tempo-and-energy filter is a sublist of the energy-only
    set, and so the three steps of the assembler give lists of
    non-decreasing length, the candidates finally used being at least as
    many as the first step found. *)
Theorem escalation_never_shrinks (tracks : list track) (ph : phase) (c : Z)
    (tol1 tol2 : Q) (Htol : tol1 <= tol2) :
  let at5 := filter_tracks_for_phase tracks ph (inject_Z c) 5 in
  let at10 := filter_tracks_for_phase tracks ph (inject_Z c) 10 in
  (forall cadence : Q,
     filter_tracks_for_phase tracks ph cadence tol1
     `sublist_of` filter_tracks_for_phase tracks ph cadence tol2)
  /\ (forall cadence : Q,
        filter_tracks_for_phase tracks ph cadence tol2
        `sublist_of` energy_only tracks ph)
  /\ at5 `sublist_of` at10
  /\ at10 `sublist_of` energy_only tracks ph
  /\ (length at5 <= length at10 <= length (energy_only tracks ph))%nat
  /\ (length at5 <= length (snd (select_candidates tracks ph c)))%nat.
Proof.
  assert (Hmono : forall cadence t1 t2, t1 <= t2 ->
    filter_tracks_for_phase tracks ph cadence t1
    `sublist_of` filter_tracks_for_phase tracks ph cadence t2).
  { intros cadence t1 t2 H12. rewrite !filter_tracks_for_phase_filter.
    apply List_filter_weaken. intros t.
    rewrite !suitable_qualifies. unfold qualifies, within.
    intros [[H|[H|H]] Hb]; (split; [|exact Hb]);
      [left | right; left | right; right]; lra. }
  assert (Hband : forall cadence t2,
    filter_tracks_for_phase tracks ph cadence t2 `sublist_of` energy_only tracks ph).
  { intros cadence t2. rewrite filter_tracks_for_phase_filter. unfold energy_only.
    apply List_filter_weaken. intros t. unfold suitable.
    rewrite andb_true_iff. tauto. }
  intros at5 at10.
  assert (H510 : at5 `sublist_of` at10) by (apply Hmono; lra).
  assert (H10e : at10 `sublist_of` energy_only tracks ph) by apply Hband.
  split; [intros; now apply Hmono|]. split; [intros; apply Hband|].
  split; [exact H510|]. split; [exact H10e|].
  apply sublist_length in H510 as L1. apply sublist_length in H10e as L2.
  split; [lia|].
  unfold select_candidates. fold at5 at10.
  destruct (length at5 <? 3)%nat eqn:E5; simpl.
  - destruct (length at10 <? 3)%nat; simpl; lia.
  - rewrite E5. simpl. lia.
Qed.

Lemma escalation_never_shrinks_witness :
  5 <= 10
  /\ (length (filter_tracks_for_phase sample_catalog warmup_50 (inject_Z 170) 5)
      <= length (snd (select_candidates sample_catalog warmup_50 170%Z)))%nat.
Proof.
  assert (H : 5 <= 10) by (vm_compute; discriminate).
  split; [exact H|].
  exact (proj2 (proj2 (proj2 (proj2 (proj2
    (escalation_never_shrinks sample_catalog warmup_50 170 5 10 H)))))).
Defined.

(** *** What the output shows of the phases *)












(** *** The playlist as a concatenation *)




(** *** The same inputs give the same playlist *)

Lemma calculate_target_cadence_proper d d' g g' :
  d == d' -> g == g' ->
  calculate_target_cadence d g = calculate_target_cadence d' g'.
Proof.
  intros Hd Hg. unfold calculate_target_cadence.
  rewrite (Qeqb_comp _ _ Hd 0 0 (Qeq_refl 0)).
  destruct (Qeq_bool d' 0) eqn:E; [reflexivity|].
  assert (Hp : g / d == g' / d') by now rewrite Hd, Hg.
  cbv zeta.
  rewrite (Qltb_proper _ _ Hp 4.0 4.0 (Qeq_refl _)).
  rewrite (Qltb_proper _ _ Hp 5.0 5.0 (Qeq_refl _)).
  reflexivity.
Qed.

Lemma fill_loop_proper tgt tgt' cur sel avail :
  tgt == tgt' -> fill_loop tgt cur sel avail = fill_loop tgt' cur sel avail.
Proof.
  intros Ht. revert cur sel. induction avail as [|t rest IH]; intros cur sel; simpl.
  - now rewrite Ht.
  - rewrite Ht. destruct (Qltb _ tgt'); [apply IH | reflexivity].
Qed.

Lemma fill_phase_duration_proper tracks m m' :
  m == m' -> fill_phase_duration tracks m = fill_phase_duration tracks m'.
Proof.
  intros Hm. destruct tracks as [|t rest]; [reflexivity|].
  unfold fill_phase_duration. apply fill_loop_proper. now rewrite Hm.
Qed.

(** A phase enters the choice of candidates through its band alone. *)
Lemma select_candidates_band tracks ph ph' c :
  energy_min ph = energy_min ph' -> energy_max ph = energy_max ph' ->
  select_candidates tracks ph c = select_candidates tracks ph' c.
Proof.
  intros Hmin Hmax.
  assert (Hs : forall cad tol,
    filter_tracks_for_phase tracks ph cad tol
    = filter_tracks_for_phase tracks ph' cad tol).
  { intros cad tol. rewrite !filter_tracks_for_phase_filter.
    apply List_filter_ext_in. intros t.
    unfold suitable, matches_energy. now rewrite Hmin, Hmax. }
  assert (He : energy_only tracks ph = energy_only tracks ph').
  { apply List_filter_ext_in. intros t.
    unfold matches_energy. now rewrite Hmin, Hmax. }
  unfold select_candidates. now rewrite !Hs, He.
Qed.

Lemma phase_tracks_add_times tracks c g g' row :
  g == g' ->
  phase_tracks tracks c (add_times g row) = phase_tracks tracks c (add_times g' row).
Proof.
  intros Hg. destruct row as [[[[nm s] e] emin] emax].
  unfold phase_tracks.
  rewrite (select_candidates_band tracks (add_times g (nm, s, e, emin, emax))
             (add_times g' (nm, s, e, emin, emax)) c) by reflexivity.
  apply fill_phase_duration_proper. simpl. now rewrite Hg.
Qed.

Lemma phase_tracks_in_order tracks c ph :
  exists (f : track -> bool) (k : nat),
    phase_tracks tracks c ph = take k (List.filter f tracks).
Proof.
  destruct (phase_tracks_prefix tracks c ph) as [rest Hrest].
  assert (Hk : phase_tracks tracks c ph
               = take (length (phase_tracks tracks c ph))
                   (snd (select_candidates tracks ph c))).
  { rewrite Hrest. now rewrite take_app_length. }
  rewrite select_candidates_spec in Hk. cbn [snd] in Hk.
  unfold spec_candidates in Hk.
  assert (Hb : forall (P : track -> Prop) `{!forall t, Decision (P t)},
    filter P tracks = List.filter (fun t => bool_decide (P t)) tracks).
  { intros P HP. symmetry. apply List_filter_decide.
    intros t. apply bool_decide_eq_true. }
  rewrite !Hb in Hk.
  repeat destruct (decide _) in Hk; eauto.
Qed.

(** C8. [generate_playlist] is a function of its inputs: two calls with
    the same catalog and numerically equal distance and goal time return
    the same result.  Nothing in the selection is random: what a phase
    contributes is an initial segment of the catalog filtered by a
    condition on the track alone, so the tracks come in catalog order. *)
Theorem generate_playlist_deterministic (tracks tracks' : list track)
    (d d' g g' : Q) (Ht : tracks = tracks') (Hd : d == d') (Hg : g == g') :
  snd (generate_playlist tracks d g) = snd (generate_playlist tracks' d' g')
  /\ (forall c ph, exists (f : track -> bool) (k : nat),
        phase_tracks tracks c ph = take k (List.filter f tracks)).
Proof.
  subst tracks'. split; [|intros; apply phase_tracks_in_order].
  pose proof (calculate_target_cadence_proper d d' g g' Hd Hg) as Hc.
  destruct (calculate_target_cadence d g) as [c|e] eqn:E.
  - rewrite (generate_playlist_returned tracks d g c E).
    rewrite (generate_playlist_returned tracks d' g' c (eq_sym Hc)).
    cbv zeta. cbn [snd]. f_equal. f_equal.
    unfold define_race_phases. rewrite !List.map_map.
    apply List.map_ext. intros row. now apply phase_tracks_add_times.
  - unfold generate_playlist. now rewrite E, <- Hc.
Qed.

Lemma generate_playlist_deterministic_witness :
  snd (generate_playlist sample_catalog 10 50)
  = snd (generate_playlist sample_catalog (20 # 2) (100 # 2)).
Proof.
  exact (proj1 (generate_playlist_deterministic sample_catalog sample_catalog
                  10 (20 # 2) 50 (100 # 2) eq_refl eq_refl eq_refl)).
Defined.

(** * Further properties of the algorithm *)

(** ** Phase planner: the minutes *)


(** ** Cadence estimator: only the pace counts *)



(** ** Phase filler: bounds *)

Lemma fill_phase_duration_loop_eq tracks m :
  fill_phase_duration tracks m = fill_loop (m * 60 * 1000) 0 [] tracks.
Proof. destruct tracks; [now rewrite fill_loop_nil | reflexivity]. Qed.

Lemma fill_loop_done tgt cur sel avail :
  tgt <= inject_Z cur -> fill_loop tgt cur sel avail = sel.
Proof.
  intros H. apply Qltb_ge in H. destruct avail; simpl; now rewrite H.
Qed.

Lemma total_duration_ms_snoc (p : list track) (t : track) :
  total_duration_ms (p ++ [t]) = (total_duration_ms p + duration_ms t)%Z.
Proof. rewrite total_duration_ms_app. simpl. lia. Qed.

Lemma inject_Z_le (a b : Z) : (a <= b)%Z -> inject_Z a <= inject_Z b.
Proof. intros H. now rewrite <- Zle_Qle. Qed.

(** X3. A target that is zero or negative selects nothing, whatever the
    tracks; a positive target takes at least the first track of a list
    that is not empty. *)
Theorem fill_phase_duration_first (tracks : list track) (phase_duration_min : Q) :
  (phase_duration_min <= 0 -> fill_phase_duration tracks phase_duration_min = [])
  /\ (0 < phase_duration_min ->
      forall t rest, tracks = t :: rest ->
      exists more, fill_phase_duration tracks phase_duration_min = t :: more).
Proof.
  split.
  - intros Hm. destruct tracks as [|t rest]; [reflexivity|].
    unfold fill_phase_duration. apply fill_loop_done.
    change (inject_Z 0) with 0. lra.
  - intros Hm t rest ->. unfold fill_phase_duration.
    rewrite fill_loop_cons.
    assert (H : Qltb (inject_Z 0) (phase_duration_min * 60 * 1000) = true).
    { apply Qltb_lt. change (inject_Z 0) with 0. lra. }
    rewrite H. eauto.
Qed.

(** The output is empty, or ends with a track of the input before which
    the target was not reached. *)
Lemma fill_phase_duration_last (tracks : list track) (m : Q) :
  fill_phase_duration tracks m = []
  \/ exists p t, fill_phase_duration tracks m = p ++ [t]
                 /\ t ∈ tracks
                 /\ inject_Z (total_duration_ms p) < m * 60 * 1000.
Proof.
  set (out := fill_phase_duration tracks m).
  assert (Hpre : out `prefix_of` tracks) by apply fill_phase_duration_prefix.
  assert (Hmin : forall p q, out = p ++ q -> q <> [] ->
            inject_Z (total_duration_ms p) < m * 60 * 1000).
  { unfold out. rewrite fill_phase_duration_loop_eq.
    intros p q H Hq. apply (fill_loop_minimal (m * 60 * 1000) 0 _ p q H Hq). }
  clearbody out.
  destruct out as [|x out' _] using rev_ind; [now left|]. right.
  exists out', x. split; [reflexivity|]. split.
  - destruct Hpre as [r ->]. rewrite !elem_of_app. left. right. constructor.
  - apply (Hmin out' [x] eq_refl). discriminate.
Qed.



(** ** Phase filler: shorter and longer targets *)

Lemma fill_loop_mono tgt tgt' cur avail :
  tgt <= tgt' ->
  fill_loop tgt cur [] avail `prefix_of` fill_loop tgt' cur [] avail.
Proof.
  intros Ht. revert cur. induction avail as [|t rest IH]; intros cur.
  - rewrite !fill_loop_nil. reflexivity.
  - rewrite !fill_loop_cons.
    destruct (Qltb (inject_Z cur) tgt) eqn:E; [|apply prefix_nil].
    apply Qltb_lt in E.
    assert (E' : Qltb (inject_Z cur) tgt' = true) by (apply Qltb_lt; lra).
    rewrite E'. apply prefix_cons, IH.
Qed.

Lemma fill_loop_refill tgt tgt' cur avail :
  tgt <= tgt' ->
  fill_loop tgt cur [] (fill_loop tgt' cur [] avail) = fill_loop tgt cur [] avail.
Proof.
  intros Ht. revert cur. induction avail as [|t rest IH]; intros cur.
  - now rewrite !fill_loop_nil.
  - rewrite (fill_loop_cons tgt'), (fill_loop_cons tgt cur t rest).
    destruct (Qltb (inject_Z cur) tgt') eqn:E'.
    + rewrite fill_loop_cons, IH. reflexivity.
    + apply Qltb_ge in E'.
      assert (E : Qltb (inject_Z cur) tgt = false) by (apply Qltb_ge; lra).
      rewrite E. apply fill_loop_nil.
Qed.

(** X5. A longer phase takes the same tracks and possibly more: for
    targets [m <= m'] the selection for [m] is an initial segment of the
    selection for [m'], and filling the shorter target from the selection
    made for the longer one gives what the full list gives.  With
    [m = m'] the filler applied to its own output changes nothing. *)
Theorem fill_phase_duration_monotone (tracks : list track) (m m' : Q)
    (Hm : m <= m') :
  fill_phase_duration tracks m `prefix_of` fill_phase_duration tracks m'
  /\ fill_phase_duration (fill_phase_duration tracks m') m
     = fill_phase_duration tracks m
  /\ fill_phase_duration (fill_phase_duration tracks m) m
     = fill_phase_duration tracks m.
Proof.
  rewrite !fill_phase_duration_loop_eq.
  split; [apply fill_loop_mono; lra|].
  split; apply fill_loop_refill; lra.
Qed.

Lemma fill_phase_duration_monotone_witness :
  2.5 <= 12.5
  /\ fill_phase_duration sample_catalog 2.5
     `prefix_of` fill_phase_duration sample_catalog 12.5.
Proof.
  assert (H : 2.5 <= 12.5) by (vm_compute; discriminate).
  split; [exact H|].
  exact (proj1 (fill_phase_duration_monotone sample_catalog 2.5 12.5 H)).
Defined.

(** ** Track filter: filtering what was filtered *)

Lemma List_filter_narrow {A} (f g : A -> bool) (l : list A) :
  (forall x, f x = true -> g x = true) ->
  List.filter f (List.filter g l) = List.filter f l.
Proof.
  intros Hfg. induction l as [|x l IH]; simpl; [reflexivity|].
  destruct (g x) eqn:Eg; simpl.
  - now rewrite IH.
  - destruct (f x) eqn:Ef; [|exact IH].
    apply Hfg in Ef. congruence.
Qed.

Lemma suitable_tolerance ph c tol1 tol2 t :
  tol1 <= tol2 -> suitable ph c tol1 t = true -> suitable ph c tol2 t = true.
Proof.
  intros H12. rewrite !suitable_qualifies. unfold qualifies, within.
  intros [[H|[H|H]] Hb]; (split; [|exact Hb]);
    [left | right; left | right; right]; lra.
Qed.

(** X6. Narrowing a result gives what the full catalog gives: filtering
    with tolerance [tol1] the result for a tolerance [tol2 >= tol1], or the
    energy-only set, or the result of the same filter, equals filtering
    the catalog with [tol1]; and the filter of two catalogs one after the
    other is the two results one after the other. *)
Theorem filter_tracks_for_phase_narrow (tracks more : list track) (ph : phase)
    (c tol1 tol2 : Q) (Htol : tol1 <= tol2) :
  filter_tracks_for_phase (filter_tracks_for_phase tracks ph c tol2) ph c tol1
  = filter_tracks_for_phase tracks ph c tol1
  /\ filter_tracks_for_phase (energy_only tracks ph) ph c tol1
     = filter_tracks_for_phase tracks ph c tol1
  /\ filter_tracks_for_phase (filter_tracks_for_phase tracks ph c tol1) ph c tol1
     = filter_tracks_for_phase tracks ph c tol1
  /\ filter_tracks_for_phase (tracks ++ more) ph c tol1
     = filter_tracks_for_phase tracks ph c tol1
       ++ filter_tracks_for_phase more ph c tol1.
Proof.
  rewrite !filter_tracks_for_phase_filter. unfold energy_only.
  split; [apply List_filter_narrow; intros t; now apply suitable_tolerance|].
  split.
  { apply List_filter_narrow. intros t. unfold suitable.
    rewrite andb_true_iff. tauto. }
  split; [apply List_filter_narrow; auto|].
  apply List.filter_app.
Qed.

Lemma filter_tracks_for_phase_narrow_witness :
  5 <= 10
  /\ filter_tracks_for_phase
       (filter_tracks_for_phase sample_catalog warmup_50 170 10) warmup_50 170 5
     = filter_tracks_for_phase sample_catalog warmup_50 170 5.
Proof.
  assert (H : 5 <= 10) by (vm_compute; discriminate).
  split; [exact H|].
  exact (proj1 (filter_tracks_for_phase_narrow sample_catalog [] warmup_50 170 5 10 H)).
Defined.

(** ** Playlist assembler: the candidates of a phase *)

Lemma qualifies_in_band ph c tol t : qualifies ph c tol t -> in_band ph t.
Proof. now intros [_ H]. Qed.

Lemma qualifies_tolerance ph c tol1 tol2 t :
  tol1 <= tol2 -> qualifies ph c tol1 t -> qualifies ph c tol2 t.
Proof.
  intros H12. rewrite <- !suitable_qualifies. now apply suitable_tolerance.
Qed.

Lemma Forall_filter_holds {A} (P : A -> Prop) `{!forall x, Decision (P x)}
    (l : list A) : Forall P (filter P l).
Proof.
  apply Forall_forall. intros x Hx.
  now apply list_elem_of_filter in Hx.
Qed.

Lemma spec_candidates_in_band tracks ph c :
  Forall (in_band ph) (spec_candidates tracks ph c).
Proof.
  unfold spec_candidates. repeat destruct (decide _).
  - apply Forall_filter_holds.
  - eapply Forall_impl; [apply Forall_filter_holds|].
    intros t. apply qualifies_in_band.
  - eapply Forall_impl; [apply Forall_filter_holds|].
    intros t. apply qualifies_in_band.
Qed.

Lemma filter_qualifies_sublist_band tracks ph c tol :
  filter (qualifies ph c tol) tracks `sublist_of` filter (in_band ph) tracks.
Proof.
  rewrite <- filter_tracks_for_phase_qualifies, <- energy_only_in_band.
  rewrite filter_tracks_for_phase_filter. unfold energy_only.
  apply List_filter_weaken. intros t. unfold suitable.
  rewrite andb_true_iff. tauto.
Qed.

(** X7. The candidates of a phase are all in its energy band.  They are
    either the whole energy-only set, or at least 3 tracks all within
    tolerance 10 of the cadence (or of half or twice it): tempo is given
    up only together, never for some tracks.  With fewer than 3 tracks of
    the catalog in the band the candidates are exactly these tracks,
    whatever their tempo; with 3 or more in the band there are at least 3
    candidates. *)
Theorem select_candidates_enough (tracks : list track) (ph : phase) (c : Z) :
  let cands := snd (select_candidates tracks ph c) in
  Forall (in_band ph) cands
  /\ (cands = energy_only tracks ph
      \/ ((3 <= length cands)%nat /\ Forall (qualifies ph (inject_Z c) 10) cands))
  /\ ((length (energy_only tracks ph) < 3)%nat -> cands = energy_only tracks ph)
  /\ ((3 <= length (energy_only tracks ph))%nat -> (3 <= length cands)%nat).
Proof.
  intros cands. subst cands. rewrite select_candidates_spec. cbn [snd].
  split; [apply spec_candidates_in_band|].
  rewrite energy_only_in_band. unfold spec_candidates.
  pose proof (filter_qualifies_sublist_band tracks ph (inject_Z c) 5) as S5.
  pose proof (filter_qualifies_sublist_band tracks ph (inject_Z c) 10) as S10.
  apply sublist_length in S5, S10.
  destruct (decide (length (filter (qualifies ph (inject_Z c) 5) tracks) < 3)%nat)
    as [H5|H5].
  - destruct (decide (length (filter (qualifies ph (inject_Z c) 10) tracks) < 3)%nat)
      as [H10|H10].
    + split; [now left|]. split; [reflexivity|]. auto.
    + split; [|split; [lia|lia]].
      right. split; [lia|]. apply Forall_filter_holds.
  - split; [|split; [lia|lia]].
    right. split; [lia|].
    eapply Forall_impl; [apply Forall_filter_holds|].
    intros t. apply qualifies_tolerance. lra.
Qed.

(** ** Playlist assembler: what the playlist contains *)

Lemma Forall_sublist_of {A} (P : A -> Prop) (l k : list A) :
  l `sublist_of` k -> Forall P k -> Forall P l.
Proof.
  intros Hs Hk. apply Forall_forall. intros x Hx.
  rewrite Forall_forall in Hk. apply Hk. exact (elem_of_sublist _ _ _ Hx Hs).
Qed.

Lemma phase_tracks_in_band tracks c ph : Forall (in_band ph) (phase_tracks tracks c ph).
Proof.
  eapply Forall_sublist_of; [apply prefix_is_sublist, phase_tracks_prefix|].
  rewrite select_candidates_spec. apply spec_candidates_in_band.
Qed.

(** The six bands lie between 0.5 and 1. *)
Lemma phase_bands_range d g :
  Forall (fun ph => 1 # 2 <= energy_min ph /\ energy_max ph <= 1)
    (define_race_phases d g).
Proof. repeat constructor; simpl; vm_compute; discriminate. Qed.

Lemma Returned_inj {A} (a b : A) : Returned a = Returned b -> a = b.
Proof. now intros [= ->]. Qed.

Lemma generate_playlist_returned_inv tracks d g playlist :
  snd (generate_playlist tracks d g) = Returned playlist ->
  exists c, calculate_target_cadence d g = Returned c
    /\ playlist = concat (List.map (phase_tracks tracks c) (define_race_phases d g)).
Proof.
  intros H. destruct (calculate_target_cadence d g) as [c|e] eqn:E.
  - rewrite (generate_playlist_returned tracks d g c E) in H. cbn in H.
    injection H as <-. eauto.
  - unfold generate_playlist in H. rewrite E in H. discriminate.
Qed.

(** X8. Every track of a returned playlist has its energy between 0.5 and
    1, the tracks contributed to a phase have it in the band of that
    phase, and the playlist has at most six times as many tracks as the
    catalog: a track of lower energy is never played, however well its
    tempo fits. *)
Theorem generate_playlist_energy (tracks : list track) (d g : Q)
    (playlist : list track)
    (Hret : snd (generate_playlist tracks d g) = Returned playlist) :
  Forall (fun t => 1 # 2 <= energy t /\ energy t <= 1) playlist
  /\ (forall c ph, Forall (in_band ph) (phase_tracks tracks c ph))
  /\ (length playlist <= 6 * length tracks)%nat.
Proof.
  destruct (generate_playlist_returned_inv _ _ _ _ Hret) as (c & Hc & ->).
  split; [|split; [intros; apply phase_tracks_in_band|]].
  - apply Forall_concat, Forall_map.
    eapply Forall_impl; [apply phase_bands_range|].
    intros ph [Hlo Hhi]. cbv beta.
    eapply Forall_impl; [apply phase_tracks_in_band|].
    intros t [H1 H2]. cbv beta. split; lra.
  - unfold define_race_phases, phase_table. cbn [List.map concat].
    rewrite !length_app. change (length (@nil track)) with 0%nat.
    repeat match goal with
           | |- context [length (phase_tracks tracks c ?ph)] =>
               let H := fresh "L" in
               pose proof (sublist_length _ _ (phase_tracks_sublist tracks c ph)) as H;
               generalize dependent (length (phase_tracks tracks c ph)); intros
           end.
    lia.
Qed.

Lemma generate_playlist_energy_witness :
  Forall (fun t => 1 # 2 <= energy t /\ energy t <= 1)
    [steady; steady; halftime; drift].
Proof.
  exact (proj1 (generate_playlist_energy sample_catalog 10 50
                  [steady; steady; halftime; drift] eq_refl)).
Defined.

(** ** Playlist assembler: when the playlist is empty *)






(** ** Playlist assembler: how long the playlist is *)

Lemma phase_tracks_overshoot tracks c ph (longest : Z) :
  (forall t, t ∈ tracks -> (duration_ms t <= longest)%Z) ->
  (0 <= longest)%Z -> 0 < duration ph ->
  inject_Z (total_duration_ms (phase_tracks tracks c ph))
  < duration ph * 60 * 1000 + inject_Z longest.
Proof.
  intros Hlong Hpos Hdur. unfold phase_tracks.
  pose proof (inject_Z_le 0 longest Hpos) as HL. change (inject_Z 0) with 0 in HL.
  destruct (fill_phase_duration_last (snd (select_candidates tracks ph c)) (duration ph))
    as [E | (p & t & E & Ht & Hp)]; rewrite E.
  - change (inject_Z (total_duration_ms [])) with 0. lra.
  - rewrite total_duration_ms_snoc, inject_Z_plus.
    rewrite select_candidates_spec in Ht.
    pose proof (elem_of_sublist _ _ _ Ht (spec_candidates_sublist _ _ _)) as Hin.
    pose proof (inject_Z_le _ _ (Hlong t Hin)). lra.
Qed.

Lemma phase_tracks_reaches tracks c ph :
  duration ph * 60 * 1000
  <= inject_Z (total_duration_ms (snd (select_candidates tracks ph c))) ->
  duration ph * 60 * 1000 <= inject_Z (total_duration_ms (phase_tracks tracks c ph)).
Proof.
  intros H. unfold phase_tracks.
  destruct (fill_phase_duration_reaches
              (snd (select_candidates tracks ph c)) (duration ph))
    as [Hr | ->]; assumption.
Qed.

(** X10. With a positive goal time, when no track of the catalog lasts
    longer than [longest] milliseconds, a returned playlist lasts less
    than the goal time plus six times [longest]: each of the six phases
    overshoots by less than one track. *)
Theorem generate_playlist_duration_upper (tracks : list track) (d g : Q)
    (longest : Z) (playlist : list track)
    (Hret : snd (generate_playlist tracks d g) = Returned playlist)
    (Hg : 0 < g)
    (Hlong : forall t, t ∈ tracks -> (duration_ms t <= longest)%Z)
    (Hpos : (0 <= longest)%Z) :
  inject_Z (total_duration_ms playlist) < g * 60 * 1000 + 6 * inject_Z longest.
Proof.
  destruct (generate_playlist_returned_inv _ _ _ _ Hret) as (c & Hc & ->).
  unfold define_race_phases, phase_table. cbn [List.map concat].
  rewrite !total_duration_ms_app, !inject_Z_plus.
  change (inject_Z (total_duration_ms [])) with 0.
  repeat match goal with
         | |- context [inject_Z (total_duration_ms (phase_tracks tracks c ?ph))] =>
             let H := fresh "B" in
             assert (H : 0 < duration ph) by (simpl; lra);
             apply (phase_tracks_overshoot tracks c ph longest Hlong Hpos) in H;
             simpl duration in H;
             generalize dependent
               (inject_Z (total_duration_ms (phase_tracks tracks c ph))); intros
         end.
  lra.
Qed.

Lemma generate_playlist_duration_upper_witness :
  inject_Z (total_duration_ms [steady; steady; halftime; drift])
  < 50 * 60 * 1000 + 6 * inject_Z 240000.
Proof.
  apply (generate_playlist_duration_upper sample_catalog 10 50 240000
           [steady; steady; halftime; drift] eq_refl).
  - reflexivity.
  - intros t Ht. unfold sample_catalog in Ht.
    repeat (apply elem_of_cons in Ht as [-> | Ht]; [vm_compute; discriminate|]).
    now apply elem_of_nil in Ht.
  - lia.
Defined.

(** X11. When in every phase the candidates together last at least as long
    as the phase, a returned playlist lasts at least the goal time: the
    filler stops short of a target only by running out of tracks. *)
Theorem generate_playlist_duration_lower (tracks : list track) (d g : Q)
    (c : Z) (playlist : list track)
    (Hc : calculate_target_cadence d g = Returned c)
    (Hret : snd (generate_playlist tracks d g) = Returned playlist)
    (Henough : Forall (fun ph =>
        duration ph * 60 * 1000
        <= inject_Z (total_duration_ms (snd (select_candidates tracks ph c))))
      (define_race_phases d g)) :
  g * 60 * 1000 <= inject_Z (total_duration_ms playlist).
Proof.
  rewrite (generate_playlist_returned tracks d g c Hc) in Hret.
  cbv zeta in Hret. cbn [snd] in Hret. apply Returned_inj in Hret. subst playlist.
  revert Henough.
  unfold define_race_phases, phase_table. cbn [List.map concat].
  intros Henough.
  rewrite !total_duration_ms_app, !inject_Z_plus.
  change (inject_Z (total_duration_ms [])) with 0.
  repeat match goal with
         | H : Forall _ (_ :: _) |- _ =>
             let H1 := fresh "R" in
             apply Forall_cons_1 in H as [H1 H];
             apply phase_tracks_reaches in H1; simpl duration in H1
         end.
  repeat match goal with
         | |- context [inject_Z (total_duration_ms (phase_tracks tracks c ?ph))] =>
             generalize dependent
               (inject_Z (total_duration_ms (phase_tracks tracks c ph))); intros
         end.
  lra.
Qed.

Lemma generate_playlist_duration_lower_witness :
  50 * 60 * 1000
  <= inject_Z (total_duration_ms
       (concat (List.map (phase_tracks long_catalog 170) (define_race_phases 10 50)))).
Proof.
  apply (generate_playlist_duration_lower long_catalog 10 50 170).
  - reflexivity.
  - reflexivity.
  - repeat constructor; vm_compute; discriminate.
Defined.

(** * The catalog and the requests of the handler *)

(** ** Batches of 100 *)

Lemma range_loop_concat {A} (xs : list A) (fuel i : nat) :
  (length xs - i <= fuel)%nat ->
  concat (List.map (fun j => slice xs j (j + 100))
            (range_loop fuel i (length xs) 100))
  = drop i xs.
Proof.
  revert i. induction fuel as [|fuel IH]; intros i Hfuel.
  - simpl. symmetry. apply drop_ge. lia.
  - simpl. destruct (i <? length xs)%nat eqn:E.
    + apply Nat.ltb_lt in E. cbn [List.map concat].
      rewrite IH by lia. unfold slice.
      replace (i + 100 - i)%nat with 100%nat by lia.
      rewrite <- drop_drop. apply take_drop.
    + apply Nat.ltb_ge in E. simpl. symmetry. now apply drop_ge.
Qed.

Lemma range_loop_lookup (fuel i n k j : nat) :
  range_loop fuel i n 100 !! k = Some j -> j = (i + 100 * k)%nat /\ (j < n)%nat.
Proof.
  revert i k. induction fuel as [|fuel IH]; intros i k; simpl; [discriminate|].
  destruct (i <? n)%nat eqn:E; [|discriminate].
  apply Nat.ltb_lt in E. destruct k as [|k]; simpl.
  - intros [= <-]. lia.
  - intros H. apply IH in H. lia.
Qed.

Lemma range_loop_length (fuel i n : nat) :
  (n - i <= fuel)%nat ->
  length (range_loop fuel i n 100) = ((n - i + 99) / 100)%nat.
Proof.
  revert i. induction fuel as [|fuel IH]; intros i Hfuel; cbn [range_loop].
  - replace (n - i)%nat with 0%nat by lia. reflexivity.
  - destruct (i <? n)%nat eqn:E.
    + apply Nat.ltb_lt in E. cbn [length]. rewrite IH by lia.
      destruct (Nat.le_gt_cases (i + 100) n) as [H|H].
      * replace (n - i + 99)%nat with ((n - (i + 100) + 99) + 1 * 100)%nat by lia.
        rewrite Nat.div_add by lia. lia.
      * replace (n - (i + 100))%nat with 0%nat by lia.
        replace (n - i + 99)%nat with ((n - i - 1) + 1 * 100)%nat by lia.
        rewrite Nat.div_add by lia.
        rewrite (Nat.div_small (n - i - 1)) by lia. reflexivity.
    + apply Nat.ltb_ge in E. replace (n - i)%nat with 0%nat by lia. reflexivity.
Qed.

Lemma List_map_lookup {A B} (f : A -> B) (l : list A) (k : nat) (b : B) :
  List.map f l !! k = Some b -> exists j, l !! k = Some j /\ b = f j.
Proof.
  revert k. induction l as [|x l IH]; intros k; [destruct k; discriminate|].
  destruct k as [|k]; simpl.
  - intros [= <-]. eauto.
  - apply IH.
Qed.

Lemma batches_concat {A} (xs : list A) : concat (batches xs) = xs.
Proof.
  unfold batches, py_range. rewrite range_loop_concat by lia. reflexivity.
Qed.

(** X12. The batches made by [range(0, len(xs), 100)] and [xs[i:i+100]]
    (the ids sent to [audio_features], the URIs sent to
    [playlist_add_items]) are the list cut at every 100th place: put
    together in order they give the list back, nothing lost and nothing
    twice; there are (n + 99) div 100 of them for n elements; the k-th
    holds the elements from place 100 k on, 100 of them or as many as are
    left, and never none, so no request is empty or above the limit. *)
Theorem batches_spec {A} (xs : list A) :
  concat (batches xs) = xs
  /\ length (batches xs) = ((length xs + 99) / 100)%nat
  /\ (forall k b, batches xs !! k = Some b ->
        b = take 100 (drop (100 * k) xs)
        /\ length b = Nat.min 100 (length xs - 100 * k)
        /\ (1 <= length b <= 100)%nat).
Proof.
  split; [apply batches_concat|]. split.
  - unfold batches, py_range. rewrite length_map, range_loop_length by lia.
    now rewrite Nat.sub_0_r.
  - intros k b Hb. unfold batches, py_range in Hb.
    apply List_map_lookup in Hb as (j & Hj & ->).
    apply range_loop_lookup in Hj as [-> Hlt]. simpl in Hlt.
    unfold slice. replace (0 + 100 * k + 100 - (0 + 100 * k))%nat with 100%nat by lia.
    rewrite Nat.add_0_l.
    split; [reflexivity|].
    rewrite length_take, length_drop. lia.
Qed.

(** A list of 250 elements goes out as 100, 100 and 50. *)
Example batches_250 :
  List.map length (batches (seq 0 250)) = [100; 100; 50]%nat.
Proof. vm_compute. reflexivity. Qed.

(** ** The audio features fetched *)

Lemma fold_left_extend {A B} (g : A -> list B) (l : list A) (acc : list B) :
  fold_left (fun all x => all ++ g x) l acc = acc ++ concat (List.map g l).
Proof.
  revert acc. induction l as [|x l IH]; intros acc; simpl.
  - now rewrite app_nil_r.
  - rewrite IH. now rewrite <- app_assoc.
Qed.

Lemma not_none_app {A} (l k : list (option A)) :
  not_none (l ++ k) = not_none l ++ not_none k.
Proof. unfold not_none. apply omap_app. Qed.

Lemma not_none_concat {A} (ls : list (list (option A))) :
  not_none (concat ls) = concat (List.map not_none ls).
Proof.
  induction ls as [|l ls IH]; [reflexivity|].
  cbn [concat List.map]. now rewrite not_none_app, IH.
Qed.

Lemma fetch_all_features_concat api ids :
  fetch_all_features api ids = not_none (concat (List.map api (batches ids))).
Proof.
  unfold fetch_all_features. rewrite fold_left_extend. simpl.
  now rewrite not_none_concat, List.map_map.
Qed.

Lemma not_none_map {A B} (f : A -> option B) (l : list A) :
  not_none (List.map f l) = omap f l.
Proof.
  unfold not_none. induction l as [|x l IH]; [reflexivity|].
  simpl. destruct (f x); [f_equal|]; exact IH.
Qed.

Lemma omap_length_le {A B} (f : A -> option B) (l : list A) :
  (length (omap f l) <= length l)%nat.
Proof.
  induction l as [|x l IH]; [reflexivity|].
  change (omap f (x :: l))
    with (match f x with Some y => y :: omap f l | None => omap f l end).
  destruct (f x); cbn [length]; lia.
Qed.

Lemma fetch_all_features_per_id api (lookup : string -> option audio_features) ids :
  (forall batch, api batch = List.map lookup batch) ->
  fetch_all_features api ids = omap lookup ids.
Proof.
  intros Hapi. rewrite fetch_all_features_concat.
  rewrite (List.map_ext _ _ Hapi), <- concat_map, batches_concat.
  apply not_none_map.
Qed.

(** X13. Asking in batches changes nothing.  The features kept are the
    answers other than [None], in the order of the requests; and for a
    service that answers every id on its own, in the order asked
    ([api batch = map lookup batch]), they are the features of the ids
    that have any, in the order of the ids, as one request for all the
    ids would give. *)
Theorem fetch_all_features_spec (api : list string -> list (option audio_features))
    (lookup : string -> option audio_features) (ids : list string)
    (Hapi : forall batch, api batch = List.map lookup batch) :
  fetch_all_features api ids = not_none (concat (List.map api (batches ids)))
  /\ fetch_all_features api ids = omap lookup ids
  /\ fetch_all_features api ids = not_none (api ids)
  /\ (length (fetch_all_features api ids) <= length ids)%nat.
Proof.
  pose proof (fetch_all_features_per_id api lookup ids Hapi) as E.
  split; [apply fetch_all_features_concat|]. split; [exact E|]. split.
  - rewrite E, Hapi. symmetry. apply not_none_map.
  - rewrite E. apply omap_length_le.
Qed.

Lemma fetch_all_features_spec_witness :
  fetch_all_features sample_api ["a"; "x"; "b"]%string = [features_a; features_b].
Proof.
  rewrite (proj1 (proj2 (fetch_all_features_spec sample_api sample_lookup
                           ["a"; "x"; "b"]%string (fun batch => eq_refl)))).
  reflexivity.
Defined.

(** ** The catalog built *)

Lemma combine_loop_ok acc pairs :
  Forall (fun p => ~ no_artist (fst p)) pairs ->
  exists ts, combine_loop acc pairs = Ok (acc ++ ts)
             /\ Forall2 (fun p t => carries (fst p) (snd p) t) pairs ts.
Proof.
  intros H. revert acc. induction H as [|[item f] pairs Hart _ IH]; intros acc.
  - exists []. split; [simpl; now rewrite app_nil_r | constructor].
  - cbn [combine_loop]. unfold make_entry. unfold no_artist in Hart. simpl in Hart.
    destruct (sp_artists (item_track item)) as [|a others] eqn:Ea; [contradiction|].
    destruct (IH (acc ++ [mkTrack (sp_id (item_track item)) (sp_name (item_track item))
                            (artist_name a) (sp_duration_ms (item_track item))
                            (f_tempo f) (f_energy f) (f_valence f) (f_danceability f)]))
      as (ts & Hts & HF).
    eexists (_ :: ts). split; [rewrite Hts; now rewrite <- app_assoc|].
    constructor; [|exact HF].
    unfold carries. simpl. rewrite Ea. repeat split; eauto.
Qed.

Lemma combine_loop_err acc pairs :
  Exists (fun p => no_artist (fst p)) pairs -> combine_loop acc pairs = Err IndexError.
Proof.
  intros H. revert acc. induction H as [[item f] pairs Hno | [item f] pairs _ IH];
    intros acc; cbn [combine_loop]; unfold make_entry.
  - unfold no_artist in Hno. simpl in Hno. now rewrite Hno.
  - destruct (sp_artists (item_track item)); [reflexivity | apply IH].
Qed.

Lemma no_artist_dec item : {no_artist item} + {~ no_artist item}.
Proof.
  unfold no_artist. destruct (sp_artists (item_track item)); [now left | now right].
Qed.

Lemma zip_fst_take {A B} (l : list A) (k : list B) :
  List.map fst (zip l k) = take (length k) l.
Proof.
  revert k. induction l as [|x l IH]; intros [|y k]; simpl; try reflexivity.
  now rewrite IH.
Qed.

(** X14. What [build_catalog] does, whatever the service answers.  It
    fails with the [IndexError] of [artists[0]] exactly when one of the
    saved items that get paired (the first ones, as many as there are
    features) lists no artist; an item without artists beyond them is not
    looked at.  When it returns a catalog, the i-th record is made of the
    i-th saved item and the i-th features kept, and the catalog has as
    many records as the shorter of the two lists, so never more than there
    are saved items. *)
Theorem build_catalog_outcome (api : list string -> list (option audio_features))
    (saved_tracks : list saved_item) :
  let all_features := fetch_all_features api (track_ids saved_tracks) in
  (build_catalog api saved_tracks = Err IndexError
   <-> Exists no_artist (take (length all_features) saved_tracks))
  /\ (forall catalog, build_catalog api saved_tracks = Ok catalog ->
        Forall2 (fun p t => carries (fst p) (snd p) t)
          (zip saved_tracks all_features) catalog
        /\ length catalog = Nat.min (length saved_tracks) (length all_features)
        /\ (length catalog <= length saved_tracks)%nat).
Proof.
  intros all_features. unfold build_catalog. fold all_features.
  set (pairs := zip saved_tracks all_features).
  assert (Hfst : List.map fst pairs = take (length all_features) saved_tracks)
    by apply zip_fst_take.
  assert (Hdec : Exists (fun p => no_artist (fst p)) pairs
                 \/ Forall (fun p => ~ no_artist (fst p)) pairs).
  { clear Hfst. induction pairs as [|p pairs [IH|IH]].
    - right. constructor.
    - left. now constructor 2.
    - destruct (no_artist_dec (fst p)); [left; now constructor | right; now constructor]. }
  assert (Hex : Exists (fun p => no_artist (fst p)) pairs
                <-> Exists no_artist (take (length all_features) saved_tracks)).
  { rewrite <- Hfst. clear. induction pairs as [|p pairs IH]; simpl.
    - split; intros H; inversion H.
    - rewrite !Exists_cons. now rewrite IH. }
  split.
  - rewrite <- Hex. split; [|apply combine_loop_err].
    intros Herr. destruct Hdec as [H|H]; [exact H|].
    destruct (combine_loop_ok [] pairs H) as (ts & Hts & _). congruence.
  - intros catalog Hok. destruct Hdec as [H|H].
    + rewrite (combine_loop_err [] pairs H) in Hok. discriminate.
    + destruct (combine_loop_ok [] pairs H) as (ts & Hts & HF).
      rewrite Hts in Hok. injection Hok as <-. simpl.
      split; [exact HF|].
      apply Forall2_length in HF. unfold pairs in HF.
      rewrite length_zip in HF. lia.
Qed.

Lemma featured_features lookup saved :
  Forall2 (fun item f => lookup (sp_id (item_track item)) = Some f)
    (featured lookup saved) (omap lookup (track_ids saved)).
Proof.
  unfold featured, track_ids. induction saved as [|item saved IH]; [constructor|].
  cbn [List.filter].
  destruct (truthy (sp_id (item_track item))) eqn:Et; cbn [andb List.map].
  - change (omap lookup (sp_id (item_track item) :: ?l))
      with (match lookup (sp_id (item_track item)) with
            | Some y => y :: omap lookup l
            | None => omap lookup l
            end).
    destruct (lookup (sp_id (item_track item))) eqn:El; [now constructor | exact IH].
  - exact IH.
Qed.

Lemma pairing_sources lookup (sources : list saved_item) (fs : list audio_features) :
  Forall2 (fun item f => lookup (sp_id (item_track item)) = Some f) sources fs ->
  forall saved catalog,
    Forall2 (fun p t => carries (fst p) (snd p) t) (zip saved fs) catalog ->
    Forall2 (fun p t => exists f, lookup (sp_id (item_track (snd p))) = Some f
                                  /\ carries (fst p) f t)
      (zip saved sources) catalog.
Proof.
  induction 1 as [|src f sources fs Hsrc _ IH]; intros saved catalog HF.
  - destruct saved; simpl in HF; inversion HF; constructor.
  - destruct saved as [|item saved]; simpl in *.
    + inversion HF; constructor.
    + inversion HF as [|? ? ? ? Hc Hrest]; subst.
      constructor; [exists f; auto | now apply IH].
Qed.

Lemma featured_all lookup saved :
  Forall (fun item => truthy (sp_id (item_track item)) = true
                      /\ is_Some (lookup (sp_id (item_track item)))) saved ->
  featured lookup saved = saved.
Proof.
  unfold featured. induction 1 as [|item saved [Ht [f Hf]] _ IH]; [reflexivity|].
  cbn [List.filter]. rewrite Ht, Hf. cbn [andb]. now rewrite IH.
Qed.

Lemma zip_diag_Forall2 {A B} (R : A * A -> B -> Prop) (l : list A) (k : list B) :
  Forall2 R (zip l l) k -> Forall2 (fun x y => R (x, x) y) l k.
Proof.
  revert k. induction l as [|x l IH]; intros k H; simpl in H.
  - inversion H; constructor.
  - inversion H; subst. constructor; [assumption | now apply IH].
Qed.

(** X15. Which features a record gets.  For a service that answers every
    id on its own and saved items that all list an artist, the catalog is
    built, and its i-th record has the id, name, artist and duration of
    the i-th saved item and the features of the i-th saved item that has
    an id and features.  When every saved item has an id and features,
    every record has the features of its own track and no saved item is
    left out; a saved item without id or features before it shifts the
    pairing. *)
Theorem build_catalog_pairing (api : list string -> list (option audio_features))
    (lookup : string -> option audio_features) (saved_tracks : list saved_item)
    (Hapi : forall batch, api batch = List.map lookup batch)
    (Hart : Forall (fun item => ~ no_artist item) saved_tracks) :
  exists catalog,
    build_catalog api saved_tracks = Ok catalog
    /\ Forall2 (fun p t => exists f, lookup (sp_id (item_track (snd p))) = Some f
                                     /\ carries (fst p) f t)
         (zip saved_tracks (featured lookup saved_tracks)) catalog
    /\ (Forall (fun item => truthy (sp_id (item_track item)) = true
                            /\ is_Some (lookup (sp_id (item_track item))))
          saved_tracks ->
        Forall2 (fun item t => exists f, lookup (sp_id (item_track item)) = Some f
                                         /\ carries item f t)
          saved_tracks catalog).
Proof.
  unfold build_catalog.
  rewrite (fetch_all_features_per_id api lookup _ Hapi).
  set (fs := omap lookup (track_ids saved_tracks)).
  assert (Hpairs : Forall (fun p => ~ no_artist (fst p)) (zip saved_tracks fs)).
  { clearbody fs. revert fs. induction Hart as [|item saved Hi _ IH]; intros fs.
    - constructor.
    - destruct fs as [|f fs]; simpl; constructor; [exact Hi | apply IH]. }
  destruct (combine_loop_ok [] _ Hpairs) as (catalog & Hok & HF).
  exists catalog. split; [exact Hok|].
  assert (Hsrc := pairing_sources lookup _ _ (featured_features lookup saved_tracks)
                    saved_tracks catalog HF).
  split; [exact Hsrc|].
  intros Hall. rewrite (featured_all lookup saved_tracks Hall) in Hsrc.
  apply (zip_diag_Forall2
           (fun p t => exists f, lookup (sp_id (item_track (snd p))) = Some f
                                 /\ carries (fst p) f t)) in Hsrc.
  exact Hsrc.
Qed.

Lemma build_catalog_pairing_witness :
  exists catalog,
    build_catalog sample_api [item_a; item_local; item_b] = Ok catalog
    /\ Forall2 (fun p t => exists f, sample_lookup (sp_id (item_track (snd p))) = Some f
                                     /\ carries (fst p) f t)
         [(item_a, item_a); (item_local, item_b)] catalog.
Proof.
  destruct (build_catalog_pairing sample_api sample_lookup
              [item_a; item_local; item_b] (fun batch => eq_refl))
    as (catalog & Hok & HF & _).
  - repeat constructor; discriminate.
  - exists catalog. split; [exact Hok | exact HF].
Defined.

(** The local file, which has no id, gets the features of the track after
    it, and that track is left out of the catalog. *)
Example build_catalog_shifted :
  build_catalog sample_api [item_a; item_local; item_b]
  = Ok [ mkTrack "a" "Alpha" "Ann" 200000 172 0.55 0.5 0.5;
         mkTrack "" "Local file" "Me" 100000 85 0.9 0.4 0.6 ].
Proof. reflexivity. Qed.
